(** * my-audio-summaries: document normalisation and audio pipeline

    A shallow embedding of the Python sources of the repository
    (the [Document] model of project-context.md, the PDF and Gmail cells
    of notebooks/sandbox.ipynb, the audio settings of config/default.yaml)
    together with the properties stated about them. *)

From stdpp Require Import base option list strings gmap.
From Stdlib Require Import ZArith Lia Ascii.

Local Open Scope string_scope.
Local Open Scope list_scope.
Local Open Scope nat_scope.

(** ** Exceptions and results

    Python code either returns a value or raises.  [result A] is the
    outcome of a call, [Raise] carrying the exception. *)

Inductive exn : Type :=
  | ValueError (msg : string)
  | IndexError (msg : string)
  | OtherError (kind msg : string).

Inductive result (A : Type) : Type :=
  | Ok (a : A)
  | Raise (e : exn).

Arguments Ok {A} a.
Arguments Raise {A} e.

#[global] Instance result_ret : MRet result := fun A a => Ok a.
#[global] Instance result_bind : MBind result := fun A B f m =>
  match m with
  | Ok a => f a
  | Raise e => Raise e
  end.
#[global] Instance result_fmap : FMap result := fun A B f m =>
  match m with
  | Ok a => Ok (f a)
  | Raise e => Raise e
  end.

Definition is_ok {A} (r : result A) : bool :=
  match r with Ok _ => true | Raise _ => false end.

(** ** The Document model (project-context.md, "Core Data Model") *)

(** [content: bytes | str] *)
Inductive Content : Type :=
  | ContentBytes (b : list Byte.byte)
  | ContentStr (s : string).

(** The values of the open [metadata: Dict[str, Any]] mapping. *)
Inductive Any : Type :=
  | AnyNone
  | AnyBool (b : bool)
  | AnyInt (z : Z)
  | AnyStr (s : string).

Record Document : Type := mkDocument {
  source : string;
  title : string;
  content : Content;
  mime_type : string;
  url : option string;
  timestamp : Z;
  metadata : gmap string Any;
  extracted_text : option string
}.

(** The [DocumentProcessor] interface, as [process_with] uses it: a guard
    on MIME types and the extraction itself, which may raise. *)
Record DocumentProcessor : Type := mkProcessor {
  supports_mime_type : string → bool;
  process : Content → result string
}.

(** The constructor with the default of the field:
    [extracted_text: Optional[str] = None]. *)
Definition new_document (src ttl : string) (c : Content) (mime : string)
    (u : option string) (ts : Z) (meta : gmap string Any) : Document :=
  mkDocument src ttl c mime u ts meta None.

(** [self.extracted_text = v] *)
Definition set_extracted_text (v : string) (d : Document) : Document :=
  {| source := source d; title := title d; content := content d;
     mime_type := mime_type d; url := url d; timestamp := timestamp d;
     metadata := metadata d; extracted_text := Some v |}.

(** [Document.process_with]: the outcome of the call paired with the
    document as the call leaves it.  The value returned is read back from
    the field ([return self.extracted_text]). *)
Definition process_with (self : Document) (processor : DocumentProcessor)
  : result (option string) * Document :=
  if negb (supports_mime_type processor (mime_type self)) then
    (Raise (ValueError ("Processor does not support mime_type: " +:+ mime_type self)),
     self)
  else
    match process processor (content self) with
    | Raise e => (Raise e, self)
    | Ok text =>
        let self' := set_extracted_text text self in
        (Ok (extracted_text self'), self')
    end.

(** ** PDF text extraction (notebooks/sandbox.ipynb, the PdfReader cell) *)

Definition newline : string := String (Ascii.ascii_of_nat 10) EmptyString.

(** The separator ["\n\n"]: the end of a line followed by an empty line. *)
Definition blank_line : string := newline +:+ newline.

(** [sep.join(items)], written as the loop it is: the separator goes
    before every item but the first. *)
Fixpoint join_from (sep acc : string) (items : list string) : string :=
  match items with
  | [] => acc
  | x :: rest => join_from sep (acc +:+ sep +:+ x) rest
  end.

Definition str_join (sep : string) (items : list string) : string :=
  match items with
  | [] => ""
  | x :: rest => join_from sep x rest
  end.

(** A page of a [PdfReader]; [page.extract_text()] returns the text of the
    page or raises. *)
Record PdfPage : Type := mkPage { extract_text : result string }.

(** [[page.extract_text() for page in reader.pages]]: pages are visited in
    order and the first exception leaves the comprehension. *)
Definition extract_pages (pages : list PdfPage) : result (list string) :=
  mapM extract_text pages.

(** ["\n\n".join([page.extract_text() for page in reader.pages])] *)
Definition pdf_text (pages : list PdfPage) : result string :=
  texts ← extract_pages pages; mret (str_join blank_line texts).

(** The body of the [with] block: [reader.pages[0]] is read before the
    join, so a reader without pages raises [IndexError]. *)
Definition read_pdf (pages : list PdfPage) : result string :=
  match pages !! 0%nat with
  | None => Raise (IndexError "sequence index out of range")
  | Some tmp => pdf_text pages
  end.

(** The texts of the pages whose extraction succeeds, in page order. *)
Definition extracted_pages (pages : list PdfPage) : list string :=
  omap (λ p, match extract_text p with Ok t => Some t | Raise _ => None end) pages.

(** Specification-level join: the items in order, a blank line between
    each two neighbours. *)
Fixpoint joined_by_blank_line (items : list string) : string :=
  match items with
  | [] => ""
  | [x] => x
  | x :: rest => x +:+ blank_line +:+ joined_by_blank_line rest
  end.

(** ** Listing Gmail messages (notebooks/sandbox.ipynb) *)

Record MessageRef : Type := mkMessageRef { id : string; threadId : string }.

(** The values of the response of [messages().list(...).execute()]. *)
Inductive ApiValue : Type :=
  | VInt (z : Z)
  | VStr (s : string)
  | VMessages (l : list MessageRef).

(** [d.get(key, default)] *)
Definition dict_get {V} (d : gmap string V) (key : string) (dflt : V) : V :=
  default dflt (d !! key).

(** [messages = results.get('messages', [])] *)
Definition messages (results : gmap string ApiValue) : ApiValue :=
  dict_get results "messages" (VMessages []).

(** [len(messages)], which raises on a value without a length. *)
Definition len (v : ApiValue) : result nat :=
  match v with
  | VMessages l => Ok (List.length l)
  | VStr s => Ok (String.length s)
  | VInt _ => Raise (OtherError "TypeError" "object of type 'int' has no len()")
  end.

(** ** Attachment parts of a Gmail payload (notebooks/sandbox.ipynb) *)

(** A payload dict: [filename] and [parts] are the keys [get_parts] reads,
    [None] standing for an absent key. *)
#[warnings="-register-all"] Inductive Payload : Type :=
  mkPayload (partId mimeType : string) (filename : option string)
            (parts : option (list Payload)).

Definition partId (p : Payload) : string :=
  match p with mkPayload i _ _ _ => i end.
Definition filename (p : Payload) : option string :=
  match p with mkPayload _ _ f _ => f end.
Definition parts (p : Payload) : option (list Payload) :=
  match p with mkPayload _ _ _ ps => ps end.

(** Truth value of [payload.get('filename')]: [None] and the empty string
    are false. *)
Definition truthy (v : option string) : bool :=
  match v with
  | None => false
  | Some s => negb (String.eqb s "")
  end.

Fixpoint get_parts (payload : Payload) : list Payload :=
  match payload with
  | mkPayload _ _ fname sub =>
      let parts0 : list Payload := [] in
      let parts1 :=
        match sub with
        | Some ps => fold_left (λ acc part, acc ++ get_parts part) ps parts0
        | None => parts0
        end in
      if truthy fname then parts1 ++ [payload] else parts1
  end.

(** Specification-level traversal: every payload of the tree, depth first,
    the nested parts of a container before the container itself. *)
Fixpoint post_order (payload : Payload) : list Payload :=
  match payload with
  | mkPayload _ _ _ sub =>
      match sub with
      | Some ps => concat (map post_order ps)
      | None => []
      end ++ [payload]
  end.

Definition has_filename (p : Payload) : bool := truthy (filename p).

(** ** Audio settings (config/default.yaml, [audio:]) *)

Definition audio_model : string := "tts-1".
Definition audio_voices : list string :=
  ["alloy"; "echo"; "fable"; "onyx"; "nova"; "shimmer"].
Definition default_voice : string := "alloy".
Definition max_chunk_size : nat := 4000.

(** ** Chunker *)

(** Modelled from the spec: the chunker (section 4.4) is not among the
    sources.  A text is its sequence of characters. *)
Definition Text : Type := list ascii.

(** Modelled from the spec: the chunker (section 4.4) is not among the
    sources.  White space: blank, tab, line feed, carriage return. *)
Definition is_space (c : ascii) : bool :=
  bool_decide (c ∈ [" "; Ascii.ascii_of_nat 9; Ascii.ascii_of_nat 10;
                    Ascii.ascii_of_nat 13]%char).

(** Modelled from the spec: the chunker (section 4.4) is not among the
    sources.  The characters that end a sentence. *)
Definition is_terminator (c : ascii) : bool :=
  bool_decide (c ∈ ["."; "!"; "?"]%char).

(** Modelled from the spec: the chunker (section 4.4) is not among the
    sources.  What follows a character: the end of the text, or a character
    with the given property. *)
Definition next_is (p : ascii → bool) (rest : Text) : bool :=
  match rest with
  | [] => true
  | d :: _ => p d
  end.

(** Modelled from the spec: the chunker (section 4.4) is not among the
    sources.  A sentence boundary lies after a terminator that is followed
    by white space or by the end of the text. *)
Definition sentence_end (c : ascii) (rest : Text) : bool :=
  is_terminator c && next_is is_space rest.

(** Modelled from the spec: the chunker (section 4.4) is not among the
    sources.  A word boundary lies after the white space that follows a
    word. *)
Definition word_end (c : ascii) (rest : Text) : bool :=
  is_space c && next_is (λ d, negb (is_space d)) rest.

(** Modelled from the spec: the chunker (section 4.4) is not among the
    sources.  The text cut at every boundary, each piece keeping its own
    characters. *)
Fixpoint pieces (cut : ascii → Text → bool) (t : Text) : list Text :=
  match t with
  | [] => []
  | c :: rest =>
      if cut c rest then [c] :: pieces cut rest
      else match pieces cut rest with
           | [] => [[c]]
           | p :: ps => (c :: p) :: ps
           end
  end.

(** Modelled from the spec: the chunker (section 4.4) is not among the
    sources.  The hard character cut of a word longer than the limit. *)
Fixpoint hard_cut (fuel M : nat) (w : Text) : list Text :=
  match fuel with
  | O => [w]
  | S fuel' =>
      if length w <=? M then [w]
      else take M w :: hard_cut fuel' M (drop M w)
  end.

(** Modelled from the spec: the chunker (section 4.4) is not among the
    sources.  A sentence within the limit is one unit; a longer one falls
    back to its words, and a word over the limit to the hard cut. *)
Definition split_sentence (M : nat) (s : Text) : list Text :=
  if length s <=? M then [s]
  else w ← pieces word_end s; hard_cut (length w) M w.

(** Modelled from the spec: the chunker (section 4.4) is not among the
    sources.  The units of a text: its sentences, split where they exceed
    the limit. *)
Definition units (M : nat) (t : Text) : list Text :=
  s ← pieces sentence_end t; split_sentence M s.

(** Modelled from the spec: the chunker (section 4.4) is not among the
    sources.  A chunk is emitted when it holds text. *)
Definition emit (cur : Text) : list Text :=
  match cur with
  | [] => []
  | _ => [cur]
  end.

(** Modelled from the spec: the chunker (section 4.4) is not among the
    sources.  Units are accumulated until the next addition would exceed
    the limit; then the chunk is emitted and a new one started. *)
Fixpoint pack (M : nat) (cur : Text) (us : list Text) : list Text :=
  match us with
  | [] => emit cur
  | u :: rest =>
      if length cur + length u <=? M then pack M (cur ++ u) rest
      else emit cur ++ pack M u rest
  end.

(** Modelled from the spec: the Chunk of section 3, an index in the
    sequence and a slice of the text. *)
Record Chunk : Type := mkChunk { chunk_index : nat; chunk_text : Text }.

(** Modelled from the spec: the chunker (section 4.4) is not among the
    sources.  No white space is normalised at the boundaries. *)
Definition chunker (t : Text) (M : nat) : list Chunk :=
  imap mkChunk (pack M [] (units M t)).

(** ** Voice assignment of the scriptwriter *)

(** Modelled from the spec: a turn of the parsed script (section 4.3),
    with the speaker label it carries, if any. *)
Record Turn : Type := mkTurn { speaker_label : option string; utterance : string }.

(** Modelled from the spec: the scriptwriter (section 4.3) is not among the
    sources.  A label is valid when it is drawn from the voice set. *)
Definition valid_label (voices : list string) (t : Turn) : option string :=
  match speaker_label t with
  | Some v => if bool_decide (v ∈ voices) then Some v else None
  | None => None
  end.

(** Modelled from the spec: the scriptwriter (section 4.3) is not among the
    sources.  The voice of the rotation at the index of a turn; the
    configured default voice stands in for an empty rotation. *)
Definition rotation_voice (voices : list string) (i : nat) : string :=
  default default_voice (voices !! (i mod length voices)).

(** Modelled from the spec: the scriptwriter (section 4.3) is not among the
    sources.  A valid label is kept; any other turn takes the voice of its
    index in the rotation. *)
Definition voice_of_turn (voices : list string) (i : nat) (t : Turn) : string :=
  default (rotation_voice voices i) (valid_label voices t).

(** Modelled from the spec: the scriptwriter (section 4.3) is not among the
    sources.  Turns are visited in order with their index and none is
    dropped. *)
Fixpoint assign_from (voices : list string) (i : nat) (turns : list Turn)
  : list (string * string) :=
  match turns with
  | [] => []
  | t :: rest =>
      (voice_of_turn voices i t, utterance t) :: assign_from voices (S i) rest
  end.

(** Modelled from the spec: the scriptwriter (section 4.3) is not among the
    sources.  The script: one (voice, utterance) pair per turn, in order. *)
Definition assign_voices (voices : list string) (turns : list Turn)
  : list (string * string) :=
  assign_from voices 0 turns.

(** ** Audio synthesizer *)

(** Modelled from the spec: the failure model of section 4.5, what the
    external synthesis call answers. *)
Inductive Outcome : Type :=
  | Audio (bytes : list Byte.byte)
  | Transient
  | Permanent.

(** Modelled from the spec: what the synthesizer (section 4.5) reports for
    one chunk. *)
Inductive SynthResult : Type :=
  | Synthesized (bytes : list Byte.byte)
  | PermanentFailure
  | RetriesExhausted.

(** Modelled from the spec: the report for one chunk together with the
    number of calls made to the capability. *)
Record Synthesis : Type := mkSynthesis { synth_result : SynthResult; attempts : nat }.

(** Modelled from the spec: the synthesizer (section 4.5) is not among the
    sources.  [tts k] is the answer of the capability to the call number
    [k]; [remaining] counts the attempts left under the ceiling. *)
Fixpoint retry (tts : nat → Outcome) (remaining made : nat) : Synthesis :=
  match remaining with
  | O => mkSynthesis RetriesExhausted made
  | S remaining' =>
      match tts made with
      | Audio a => mkSynthesis (Synthesized a) (S made)
      | Permanent => mkSynthesis PermanentFailure (S made)
      | Transient => retry tts remaining' (S made)
      end
  end.

(** Modelled from the spec: the synthesizer (section 4.5) is not among the
    sources.  One synthesis under the attempt ceiling [max_attempts]; the
    delays between attempts are not part of the model. *)
Definition synthesize (max_attempts : nat) (tts : nat → Outcome) : Synthesis :=
  retry tts max_attempts 0.

(** Modelled from the spec: the orchestrator (section 4.6) is not among
    the sources.  Every chunk is synthesized on its own; [tts i] is the
    capability as the calls for chunk [i] meet it. *)
Definition synthesize_all (max_attempts : nat) (tts : nat → nat → Outcome)
    (chunks : list Chunk) : list (nat * Synthesis) :=
  map (λ c, (chunk_index c, synthesize max_attempts (tts (chunk_index c)))) chunks.

(** ** The rest of the notebook cells (notebooks/sandbox.ipynb) *)

(** [s[:n]] for [n >= 0]: the first [n] characters, the whole string when
    it has fewer. *)
Fixpoint str_prefix (n : nat) (s : string) : string :=
  match n, s with
  | S n', String c rest => String c (str_prefix n' rest)
  | _, _ => ""
  end.

(** [text1 = text[:500]] *)
Definition text1 (text : string) : string := str_prefix 500 text.

(** The PdfReader cell as a whole: [text] and [text1] as it leaves them. *)
Definition pdf_cell (pages : list PdfPage) : result (string * string) :=
  text ← read_pdf pages; mret (text, text1 text).

(** ['\n'.join(doc.title for doc in documents)] *)
Definition titles_listing (documents : list Document) : string :=
  str_join newline (map title documents).

(** [seq[i]] on a list, for [i >= 0]. *)
Definition getitem {A} (l : list A) (i : nat) : result A :=
  match l !! i with
  | Some x => Ok x
  | None => Raise (IndexError "list index out of range")
  end.

(** [message = messages[1]; message_id = message['id']] on the value that
    [results.get('messages', [])] gave. *)
Definition second_message_id (v : ApiValue) : result string :=
  match v with
  | VMessages l => message ← getitem l 1; mret (id message)
  | VStr s =>
      if String.length s <=? 1
      then Raise (IndexError "string index out of range")
      else Raise (OtherError "TypeError" "string indices must be integers")
  | VInt _ => Raise (OtherError "TypeError" "'int' object is not subscriptable")
  end.

(** The [get_parts] cell: the second message is fetched, its payload
    searched, and the second part found is printed.  [get_payload] stands
    for [service.users().messages().get(...).execute()['payload']]. *)
Definition inspect_second_message (get_payload : string → result Payload)
    (results : gmap string ApiValue) : result Payload :=
  message_id ← second_message_id (messages results);
  payload ← get_payload message_id;
  getitem (get_parts payload) 1.

(** The number of payloads in a payload tree. *)
Fixpoint payload_size (payload : Payload) : nat :=
  match payload with
  | mkPayload _ _ _ sub =>
      S (match sub with
         | Some ps => sum_list (map payload_size ps)
         | None => 0
         end)
  end.

(** [os.getenv(key)] *)
Definition getenv (env : gmap string string) (key : string) : option string :=
  env !! key.

(** The message of the environment cell:
    [if os.getenv("OPENAI_API_KEY") and os.getenv("GEMINI_API_KEY")]. *)
Definition keys_message (env : gmap string string) : string :=
  if truthy (getenv env "OPENAI_API_KEY") && truthy (getenv env "GEMINI_API_KEY")
  then "API keys loaded"
  else "WARNING: API keys not found".

(** An absolute path, as the names below the root. *)
Definition Path : Type := list string.

(** [path.name]; the root has the empty name. *)
Definition path_name (p : Path) : string := default "" (last p).

(** [path.parent]; the root is its own parent. *)
Definition path_parent (p : Path) : Path := removelast p.

(** The directory change of the environment cell: the working directory
    after [if notebook_path.name != os.getenv("ROOT_DIR"):
    os.chdir(notebook_path.parent)]. *)
Definition enter_root_dir (env : gmap string string) (notebook_path : Path) : Path :=
  if bool_decide (Some (path_name notebook_path) = getenv env "ROOT_DIR")
  then notebook_path
  else path_parent notebook_path.

(** A calendar date, as [strftime] reads it from a [datetime]. *)
Record Date : Type := mkDate { year : nat; month : nat; day : nat }.

Definition digit (n : nat) : ascii := Ascii.ascii_of_nat (48 + n mod 10).

(** [%m] and [%d]: two decimal digits, zero padded. *)
Definition two_digits (n : nat) : string :=
  String (digit (n / 10)) (String (digit n) "").

(** [%Y] for the years from 1000 on: four decimal digits. *)
Definition four_digits (n : nat) : string :=
  String (digit (n / 1000)) (String (digit (n / 100))
    (String (digit (n / 10)) (String (digit n) ""))).

(** The directives of [strftime] that the notebook uses; [%%] is a percent
    sign and any other directive is kept as it is written. *)
Definition directive (c : ascii) (d : Date) : string :=
  if Ascii.eqb c "Y" then four_digits (year d)
  else if Ascii.eqb c "m" then two_digits (month d)
  else if Ascii.eqb c "d" then two_digits (day d)
  else if Ascii.eqb c "%" then "%"
  else String "%" (String c "").

(** [d.strftime(fmt)]: directives are replaced, other characters copied. *)
Fixpoint strftime (fmt : string) (d : Date) : string :=
  match fmt with
  | "" => ""
  | String c rest =>
      match rest with
      | String c' rest' =>
          if Ascii.eqb c "%" then directive c' d +:+ strftime rest' d
          else String c (strftime rest d)
      | "" => String c ""
      end
  end.

(** [date_str = since.strftime("%Y/%m/%d")] *)
Definition date_str (since : Date) : string := strftime "%Y/%m/%d" since.

(** [query = f"after:{date_str}"] *)
Definition gmail_query (since : Date) : string :=
  "after:" +:+ date_str since.

(** What [datetime] admits as a date with a four-digit year. *)
Definition valid_date (d : Date) : Prop :=
  1 ≤ year d / 1000 ≤ 9 ∧ 1 ≤ month d ≤ 12 ∧ 1 ≤ day d ≤ 31.

(** ** Processors as arbitrary objects *)

(** A processor as the Python object it is: its methods may raise and may
    change the state [S] the object keeps between calls, and [process] may
    return [None].  [supports_call] gives the truth value that
    [not processor.supports_mime_type(...)] tests. *)
Record ProcessorObject (S : Type) : Type := mkProcessorObject {
  supports_call : S → string → result bool * S;
  process_call : S → Content → result (option string) * S
}.

Arguments supports_call {S} _ _ _.
Arguments process_call {S} _ _ _.

(** [self.extracted_text = v], for whatever [process] returned. *)
Definition store_extracted_text (v : option string) (d : Document) : Document :=
  {| source := source d; title := title d; content := content d;
     mime_type := mime_type d; url := url d; timestamp := timestamp d;
     metadata := metadata d; extracted_text := v |}.

(** [Document.process_with] for such an object: the outcome, the document
    and the state of the processor as the call leaves them. *)
Definition process_with_object {S} (self : Document) (processor : ProcessorObject S)
    (st : S) : result (option string) * Document * S :=
  match supports_call processor st (mime_type self) with
  | (Raise e, st1) => (Raise e, self, st1)
  | (Ok supported, st1) =>
      if negb supported then
        (Raise (ValueError ("Processor does not support mime_type: " +:+ mime_type self)),
         self, st1)
      else
        match process_call processor st1 (content self) with
        | (Raise e, st2) => (Raise e, self, st2)
        | (Ok v, st2) =>
            let self' := store_extracted_text v self in
            (Ok (extracted_text self'), self', st2)
        end
  end.

(** A [DocumentProcessor] seen as an object without state. *)
Definition as_object (P : DocumentProcessor) : ProcessorObject unit :=
  mkProcessorObject unit
    (λ st m, (Ok (supports_mime_type P m), st))
    (λ st c, (Some <$> process P c, st)).

(** A processor keeps no state when its calls leave the state as it was. *)
Definition stateless {S} (processor : ProcessorObject S) : Prop :=
  (∀ st m, (supports_call processor st m).2 = st)
  ∧ (∀ st c, (process_call processor st c).2 = st).

(** ** Fetchers *)

(** Modelled from the spec: the Fetcher contract of section 4.2; no fetcher
    is among the sources.  A fetcher lists the items of its source since a
    point in time, in the order of the source, keeps the items that match
    the filters, and turns each kept item into its documents.  Listing and
    conversion are calls to the source and may fail. *)
Record Fetcher (Item Filters : Type) : Type := mkFetcher {
  list_items : Z → Filters → result (list Item);
  matches : Filters → Item → bool;
  item_documents : Item → result (list Document)
}.

Arguments list_items {Item Filters} _ _ _.
Arguments matches {Item Filters} _ _ _.
Arguments item_documents {Item Filters} _ _.

(** Modelled from the spec: [fetch(since, filters) -> sequence of Document]
    (sections 4.2 and 6), which no source file implements. *)
Definition fetch {Item Filters} (f : Fetcher Item Filters) (since : Z)
    (filters : Filters) : result (list Document) :=
  items ← list_items f since filters;
  found ← mapM (item_documents f) (List.filter (matches f filters) items);
  mret (concat found).

(** Modelled from the spec: a Gmail fetcher around the listing of the
    notebook, [results.get('messages', [])].  [list_call] stands for
    [messages().list(userId='me', q=query).execute()] and [documents_of]
    for the conversion of a message into documents; neither is among the
    sources.  The query does the matching. *)
Definition gmail_fetcher (list_call : Z → result (gmap string ApiValue))
    (documents_of : MessageRef → result (list Document)) : Fetcher MessageRef unit :=
  mkFetcher MessageRef unit
    (λ since _,
       results ← list_call since;
       match messages results with
       | VMessages l => Ok l
       | VStr _ | VInt _ =>
           Raise (OtherError "TypeError" "'messages' is not a list")
       end)
    (λ _ _, true)
    documents_of.

(** * Sample inputs *)

Definition text_processor : DocumentProcessor :=
  mkProcessor (λ m, String.eqb m "text/plain")
              (λ c, match c with
                    | ContentStr s => Ok s
                    | ContentBytes _ => Raise (OtherError "ProcessingError" "corrupt input")
                    end).

Definition shouting_processor : DocumentProcessor :=
  mkProcessor (λ m, String.eqb m "text/plain") (λ _, Ok "SECOND").

Definition pdf_only_processor : DocumentProcessor :=
  mkProcessor (λ m, String.eqb m "application/pdf") (λ _, Ok "pdf text").

Definition note : Document :=
  new_document "gmail" "note.txt" (ContentStr "first") "text/plain" None 0 ∅.


Definition unreadable : exn := OtherError "PdfReadError" "cannot read page".

Definition two_pages : list PdfPage :=
  [mkPage (Ok "page one"); mkPage (Ok "page two")].

Definition damaged_pdf : list PdfPage :=
  [mkPage (Ok "a"); mkPage (Raise unreadable); mkPage (Ok "b")].

Definition no_match_response : gmap string ApiValue :=
  {[ "resultSizeEstimate" := VInt 0 ]}.

Definition two_match_response : gmap string ApiValue :=
  <[ "messages" := VMessages [mkMessageRef "m2" "t2"; mkMessageRef "m1" "t1"] ]>
    {[ "resultSizeEstimate" := VInt 2 ]}.

Definition pdf_part : Payload :=
  mkPayload "2" "application/pdf" (Some "a.pdf") None.
Definition nested_pdf_part : Payload :=
  mkPayload "3.1" "application/pdf" (Some "b.pdf") None.
Definition forwarded_part : Payload :=
  mkPayload "3" "message/rfc822" (Some "m.eml") (Some [nested_pdf_part]).
Definition body_part : Payload :=
  mkPayload "1" "text/plain" (Some "") None.
Definition mixed_payload : Payload :=
  mkPayload "0" "multipart/mixed" (Some "")
            (Some [body_part; pdf_part; forwarded_part]).

Definition sample_text : Text :=
  String.list_ascii_of_string "Hello world. This is a test! Supercalifragilistic word?".

Definition sample_turns : list Turn :=
  [mkTurn (Some "echo") "Welcome."; mkTurn None "Thanks.";
   mkTurn (Some "female-1") "Shall we start?"; mkTurn None "Yes."].

(** A stub that fails transiently twice and then succeeds. *)
Definition flaky_tts (k : nat) : Outcome :=
  match k with
  | 0 | 1 => Transient
  | _ => Audio [Byte.x49; Byte.x44; Byte.x33]
  end.

Definition rejecting_tts (k : nat) : Outcome := Permanent.
Definition scanned_note : Document :=
  new_document "gmail" "scan" (ContentBytes [Byte.x25; Byte.x50]) "text/plain"
               None 0 ∅.

Definition paged_response : gmap string ApiValue :=
  <[ "nextPageToken" := VStr "0042" ]> two_match_response.

Definition wrapped_pdf : Payload :=
  mkPayload "0" "multipart/mixed" None (Some [pdf_part]).

(** The payload of every message: [mixed_payload]. *)
Definition mixed_mailbox (message_id : string) : result Payload := Ok mixed_payload.

Definition new_year_2025 : Date := mkDate 2025 1 1.

Definition notebook_env : gmap string string :=
  {[ "ROOT_DIR" := "my-audio-summaries"; "OPENAI_API_KEY" := "sk-test";
     "GEMINI_API_KEY" := "" ]}.

Definition notebooks_dir : Path := ["Users"; "me"; "my-audio-summaries"; "notebooks"].

(** A processor that numbers its answers: the state counts the calls of
    [process]. *)
Definition counting_processor : ProcessorObject nat :=
  mkProcessorObject nat
    (λ st m, (Ok true, st))
    (λ st c, (Ok (Some (if st =? 0 then "first call" else "later call")), S st)).

(** A processor whose [process] returns [None]. *)
Definition silent_processor : ProcessorObject unit :=
  mkProcessorObject unit (λ st m, (Ok true, st)) (λ st c, (Ok None, st)).

(** A Gmail source that answers every listing with no match and cannot
    convert any message. *)
Definition quiet_gmail : Fetcher MessageRef unit :=
  gmail_fetcher (λ _, Ok no_match_response) (λ _, Raise unreadable).

(** * Properties *)

(** ** Documents and processors *)

Lemma process_with_cases (D : Document) (P : DocumentProcessor) :
  (supports_mime_type P (mime_type D) = false ∧
     process_with D P =
       (Raise (ValueError ("Processor does not support mime_type: " +:+ mime_type D)), D))
  ∨ (supports_mime_type P (mime_type D) = true ∧
     ∃ e, process P (content D) = Raise e ∧ process_with D P = (Raise e, D))
  ∨ (supports_mime_type P (mime_type D) = true ∧
     ∃ s, process P (content D) = Ok s ∧
          process_with D P = (Ok (Some s), set_extracted_text s D)).
Proof.
  unfold process_with.
  destruct (supports_mime_type P (mime_type D)); simpl.
  - right. destruct (process P (content D)) as [s|e].
    + right. eauto.
    + left. eauto.
  - left. auto.
Qed.

(** C1: when the processor does not support the MIME type of the document,
    [process_with] raises [ValueError] (the validation error of the code)
    and leaves the document, and so its [extracted_text], as it was. *)
Theorem process_with_unsupported (D : Document) (P : DocumentProcessor) :
  supports_mime_type P (mime_type D) = false →
  (∃ msg, (process_with D P).1 = Raise (ValueError msg))
  ∧ extracted_text (process_with D P).2 = extracted_text D
  ∧ (process_with D P).2 = D.
Proof.
  intros Hno.
  destruct (process_with_cases D P) as [[_ ->]|[[Hyes _]|[Hyes _]]];
    [|congruence..].
  simpl. eauto.
Qed.

Lemma process_with_unsupported_witness :
  supports_mime_type pdf_only_processor (mime_type note) = false
  ∧ extracted_text (process_with note pdf_only_processor).2 = extracted_text note.
Proof.
  split; [reflexivity|].
  apply (process_with_unsupported note pdf_only_processor). reflexivity.
Defined.

(** C2, as stated, fails: a document whose [extracted_text] is set by a
    first processor has it replaced by a second supporting processor. *)
Lemma extracted_text_overwritten :
  let once := (process_with note text_processor).2 in
  extracted_text note = None
  ∧ extracted_text once = Some "first"
  ∧ extracted_text (process_with once shouting_processor).2 = Some "SECOND"
  ∧ extracted_text (process_with once shouting_processor).2 ≠ extracted_text once.
Proof. simpl. repeat split; try reflexivity. discriminate. Qed.

(** C2, amended: [extracted_text] is [None] in a new document and is changed
    by [process_with] only when the processor supports the MIME type and
    its [process] returns; the call then stores that text, whether or not
    a text was stored before.  An unsupported or failing call keeps it. *)
Theorem extracted_text_written_by_supporting (D : Document) (P : DocumentProcessor) :
  (∀ src ttl c mime u ts meta,
     extracted_text (new_document src ttl c mime u ts meta) = None)
  ∧ (supports_mime_type P (mime_type D) = false →
     extracted_text (process_with D P).2 = extracted_text D)
  ∧ (∀ e, process P (content D) = Raise e →
     extracted_text (process_with D P).2 = extracted_text D)
  ∧ (∀ s, supports_mime_type P (mime_type D) = true →
     process P (content D) = Ok s →
     extracted_text (process_with D P).2 = Some s)
  ∧ (extracted_text (process_with D P).2 ≠ extracted_text D →
     supports_mime_type P (mime_type D) = true ∧ is_ok (process P (content D)) = true).
Proof.
  split; [reflexivity|].
  destruct (process_with_cases D P)
    as [[Hno ->]|[[Hyes (e & He & ->)]|[Hyes (s & Hs & ->)]]]; simpl;
    repeat split; intros; try congruence.
  by rewrite Hs.
Qed.

Lemma extracted_text_written_by_supporting_witness :
  extracted_text
    (process_with (process_with note text_processor).2 shouting_processor).2
  = Some "SECOND".
Proof.
  apply (extracted_text_written_by_supporting
           (process_with note text_processor).2 shouting_processor);
    reflexivity.
Defined.

(** C8: when the processor supports the MIME type and [process] returns the
    string [s], [process_with] returns [s], stores the same string in
    [extracted_text], and changes no other field. *)
Theorem process_with_supported (D : Document) (P : DocumentProcessor) (s : string) :
  supports_mime_type P (mime_type D) = true →
  process P (content D) = Ok s →
  let D' := (process_with D P).2 in
  (process_with D P).1 = Ok (Some s)
  ∧ extracted_text D' = Some s
  ∧ (process_with D P).1 = Ok (extracted_text D')
  ∧ source D' = source D ∧ title D' = title D ∧ content D' = content D
  ∧ mime_type D' = mime_type D ∧ url D' = url D
  ∧ timestamp D' = timestamp D ∧ metadata D' = metadata D.
Proof.
  intros Hyes Hs.
  destruct (process_with_cases D P)
    as [[Hno _]|[[_ (e & He & _)]|[_ (s' & Hs' & ->)]]]; try congruence.
  assert (s' = s) as -> by congruence.
  simpl. repeat split.
Qed.

Lemma process_with_supported_witness :
  (process_with note text_processor).1 = Ok (Some "first")
  ∧ extracted_text (process_with note text_processor).2 = Some "first".
Proof.
  destruct (process_with_supported note text_processor "first"
              eq_refl eq_refl) as (H1 & H2 & _).
  split; [exact H1 | exact H2].
Defined.

(** ** PDF text *)

Lemma string_app_cons (x : ascii) (a b : string) :
  String x a +:+ b = String x (a +:+ b).
Proof. reflexivity. Qed.

Lemma string_app_nil_r (a : string) : a +:+ "" = a.
Proof.
  induction a as [|x a IH]; [reflexivity|].
  by rewrite string_app_cons, IH.
Qed.

Lemma string_app_assoc (a b c : string) : (a +:+ b) +:+ c = a +:+ (b +:+ c).
Proof.
  induction a as [|x a IH]; [reflexivity|].
  by rewrite !string_app_cons, IH.
Qed.

Lemma join_from_app (sep acc : string) (items : list string) :
  join_from sep acc items = acc +:+ join_from sep "" items.
Proof.
  revert acc. induction items as [|x rest IH]; intros acc; simpl.
  - by rewrite string_app_nil_r.
  - change ("" +:+ sep +:+ x) with (sep +:+ x).
    rewrite (IH (acc +:+ sep +:+ x)), (IH (sep +:+ x)), !string_app_assoc.
    reflexivity.
Qed.

(** The loop of [str.join] computes the specification-level join. *)
Lemma str_join_blank_line (items : list string) :
  str_join blank_line items = joined_by_blank_line items.
Proof.
  destruct items as [|x rest]; [reflexivity|].
  unfold str_join. revert x.
  induction rest as [|y rest IH]; intros x; [reflexivity|].
  change (join_from blank_line x (y :: rest))
    with (join_from blank_line (x +:+ blank_line +:+ y) rest).
  rewrite join_from_app, string_app_assoc.
  change (joined_by_blank_line (x :: y :: rest))
    with (x +:+ blank_line +:+ joined_by_blank_line (y :: rest)).
  rewrite <- IH, (join_from_app _ y), string_app_assoc. reflexivity.
Qed.

Lemma extract_pages_all_ok (pages : list PdfPage) (texts : list string) :
  Forall2 (λ p t, extract_text p = Ok t) pages texts →
  extract_pages pages = Ok texts.
Proof.
  unfold extract_pages.
  induction 1 as [|p t pages texts Hp _ IH]; simpl; [reflexivity|].
  rewrite Hp. simpl. rewrite IH. reflexivity.
Qed.

Lemma extract_pages_first_failure (good rest : list PdfPage) (bad : PdfPage) (e : exn) :
  Forall (λ p, is_ok (extract_text p) = true) good →
  extract_text bad = Raise e →
  extract_pages (good ++ bad :: rest) = Raise e.
Proof.
  unfold extract_pages. intros Hgood Hbad.
  induction Hgood as [|p good Hp _ IH]; simpl.
  - rewrite Hbad. reflexivity.
  - destruct (extract_text p); [|discriminate]. simpl. rewrite IH. reflexivity.
Qed.

(** C4: when every page extracts, the text of a PDF with at least one page
    is the texts of its pages in page order with a blank line between
    neighbours; for two pages, the first text, a blank line, the second. *)
Theorem pdf_pages_joined_by_blank_line (pages : list PdfPage) (texts : list string) :
  Forall2 (λ p t, extract_text p = Ok t) pages texts →
  pages ≠ [] →
  read_pdf pages = Ok (joined_by_blank_line texts)
  ∧ pdf_text pages = Ok (joined_by_blank_line texts)
  ∧ (∀ p1 p2 t1 t2, pages = [p1; p2] → texts = [t1; t2] →
       read_pdf pages = Ok (t1 +:+ newline +:+ newline +:+ t2)).
Proof.
  intros Hall Hne.
  assert (pdf_text pages = Ok (joined_by_blank_line texts)) as Htext.
  { unfold pdf_text. rewrite (extract_pages_all_ok _ _ Hall). simpl.
    by rewrite str_join_blank_line. }
  assert (read_pdf pages = Ok (joined_by_blank_line texts)) as Hread.
  { unfold read_pdf. destruct pages; [done|]. exact Htext. }
  repeat split; [exact Hread | exact Htext |].
  intros p1 p2 t1 t2 -> ->. rewrite Hread. reflexivity.
Qed.

Lemma pdf_pages_joined_by_blank_line_witness :
  read_pdf two_pages = Ok ("page one" +:+ newline +:+ newline +:+ "page two").
Proof.
  refine (proj2 (proj2 (pdf_pages_joined_by_blank_line two_pages
                          ["page one"; "page two"] _ _)) _ _ _ _ eq_refl eq_refl).
  - repeat constructor.
  - discriminate.
Defined.

(** C5, as stated, fails: with a page that cannot be extracted between two
    good pages, the whole extraction raises; the texts of the good pages
    are not returned. *)
Lemma failing_page_aborts_document :
  extracted_pages damaged_pdf = ["a"; "b"]
  ∧ read_pdf damaged_pdf = Raise unreadable
  ∧ read_pdf damaged_pdf ≠ Ok (joined_by_blank_line (extracted_pages damaged_pdf)).
Proof. repeat split; discriminate. Qed.

(** C5, amended: when some page fails to extract, the extraction of the
    document raises the exception of the first such page in page order. *)
Theorem failing_page_raises (good rest : list PdfPage) (bad : PdfPage) (e : exn) :
  Forall (λ p, is_ok (extract_text p) = true) good →
  extract_text bad = Raise e →
  read_pdf (good ++ bad :: rest) = Raise e
  ∧ pdf_text (good ++ bad :: rest) = Raise e.
Proof.
  intros Hgood Hbad.
  assert (pdf_text (good ++ bad :: rest) = Raise e) as Htext.
  { unfold pdf_text. by rewrite (extract_pages_first_failure _ _ _ _ Hgood Hbad). }
  split; [|exact Htext].
  unfold read_pdf. destruct good; exact Htext.
Qed.

Lemma failing_page_raises_witness : read_pdf damaged_pdf = Raise unreadable.
Proof.
  refine (proj1 (failing_page_raises [mkPage (Ok "a")] [mkPage (Ok "b")]
                   (mkPage (Raise unreadable)) unreadable _ _)).
  - repeat constructor.
  - reflexivity.
Defined.

(** ** Gmail *)

(** The listing of the notebook: a response without the key ['messages']
    gives the empty list, a value and not an exception; a response with
    the key gives its list as it is, in the order of the response. *)
Lemma messages_empty_when_none_found (results : gmap string ApiValue) :
  (results !! "messages" = None →
     messages results = VMessages [] ∧ len (messages results) = Ok 0)
  ∧ (∀ l, results !! "messages" = Some (VMessages l) →
     messages results = VMessages l ∧ len (messages results) = Ok (length l)).
Proof.
  unfold messages, dict_get. split.
  - intros ->. split; reflexivity.
  - intros l ->. split; reflexivity.
Qed.

(** Induction on payload trees: the property of a container follows from
    the property of each of its nested parts. *)
Lemma Payload_tree_ind (P : Payload → Prop) :
  (∀ i m f, P (mkPayload i m f None)) →
  (∀ i m f ps, Forall P ps → P (mkPayload i m f (Some ps))) →
  ∀ p, P p.
Proof.
  intros Hleaf Hnode. fix IH 1. intros [i m f [ps|]].
  - apply Hnode. induction ps as [|q ps IHps]; constructor.
    + apply IH.
    + exact IHps.
  - apply Hleaf.
Qed.

(** The [for] loop with [parts.extend]: the results for the nested parts
    are appended in order to what was collected before. *)
Lemma extend_loop {A B} (f : A → list B) (ps : list A) (acc : list B) :
  fold_left (λ acc part, acc ++ f part) ps acc = acc ++ concat (map f ps).
Proof.
  revert acc. induction ps as [|p ps IH]; intros acc; simpl.
  - by rewrite app_nil_r.
  - by rewrite IH, app_assoc.
Qed.

Lemma get_parts_unfold (i m : string) (f : option string) (sub : option (list Payload)) :
  get_parts (mkPayload i m f sub) =
    match sub with
    | Some ps => concat (map get_parts ps)
    | None => []
    end ++ (if truthy f then [mkPayload i m f sub] else []).
Proof.
  simpl. destruct sub as [ps|].
  - rewrite extend_loop. simpl. destruct (truthy f); [reflexivity|].
    by rewrite app_nil_r.
  - destruct (truthy f); reflexivity.
Qed.

(** C10: [get_parts] returns the payloads of the tree whose [filename] is
    truthy, in depth-first order with the nested parts of a container before
    the container; a payload without ['parts'] and without a filename gives
    the empty list. *)
Theorem get_parts_named_post_order (payload : Payload) :
  get_parts payload = List.filter has_filename (post_order payload)
  ∧ (∀ p, p ∈ get_parts payload ↔ p ∈ post_order payload ∧ truthy (filename p) = true)
  ∧ (parts payload = None → truthy (filename payload) = false →
     get_parts payload = []).
Proof.
  assert (∀ p, get_parts p = List.filter has_filename (post_order p)) as Heq.
  { induction p as [i m f|i m f ps IH] using Payload_tree_ind.
    - rewrite get_parts_unfold. simpl. unfold has_filename. simpl.
      destruct (truthy f); reflexivity.
    - rewrite get_parts_unfold. simpl post_order.
      rewrite List.filter_app, <- List.concat_filter_map, map_map.
      assert (map get_parts ps = map (λ q, List.filter has_filename (post_order q)) ps)
        as ->.
      { induction IH as [|q ps Hq _ IHps]; simpl; [reflexivity|].
        by rewrite Hq, IHps. }
      simpl. unfold has_filename. simpl. destruct (truthy f); reflexivity. }
  split; [apply Heq|]. split.
  - intros p. rewrite Heq, !list_elem_of_In, List.filter_In. reflexivity.
  - destruct payload as [i m f sub]. simpl parts. simpl filename.
    intros -> Hf. rewrite get_parts_unfold, Hf. reflexivity.
Qed.

Lemma get_parts_named_post_order_witness :
  get_parts mixed_payload = [pdf_part; nested_pdf_part; forwarded_part]
  ∧ get_parts body_part = [].
Proof.
  split.
  - rewrite (proj1 (get_parts_named_post_order mixed_payload)). reflexivity.
  - apply (proj2 (proj2 (get_parts_named_post_order body_part))); reflexivity.
Defined.

(** ** Chunker *)

Section Chunker.
Variable M : nat.
Hypothesis M_pos : 0 < M.

Abbreviation fits := (Forall (λ u : Text, length u ≤ M)).

Lemma pieces_concat (cut : ascii → Text → bool) (t : Text) :
  concat (pieces cut t) = t.
Proof.
  induction t as [|c rest IH]; simpl; [reflexivity|].
  destruct (cut c rest); simpl.
  - by rewrite IH.
  - destruct (pieces cut rest) as [|p ps]; simpl in *; by rewrite <- IH.
Qed.

Lemma hard_cut_concat (fuel : nat) (w : Text) :
  concat (hard_cut fuel M w) = w.
Proof.
  revert w. induction fuel as [|fuel IH]; intros w; simpl.
  - by rewrite app_nil_r.
  - destruct (length w <=? M); simpl.
    + by rewrite app_nil_r.
    + by rewrite IH, take_drop.
Qed.

Lemma hard_cut_fits (fuel : nat) (w : Text) :
  length w ≤ fuel + M → fits (hard_cut fuel M w).
Proof.
  revert w. induction fuel as [|fuel IH]; intros w Hlen; simpl.
  - repeat constructor. lia.
  - destruct (Nat.leb_spec (length w) M) as [Hle|Hgt].
    + repeat constructor. lia.
    + constructor.
      * rewrite length_take. lia.
      * apply IH. rewrite length_drop. lia.
Qed.

Lemma split_sentence_concat (s : Text) : concat (split_sentence M s) = s.
Proof.
  unfold split_sentence. destruct (length s <=? M); simpl.
  - by rewrite app_nil_r.
  - rewrite <- (pieces_concat word_end s) at 2.
    induction (pieces word_end s) as [|w ws IH]; [reflexivity|].
    rewrite bind_cons, concat_app, IH, hard_cut_concat. reflexivity.
Qed.

Lemma split_sentence_fits (s : Text) : fits (split_sentence M s).
Proof.
  unfold split_sentence. destruct (Nat.leb_spec (length s) M) as [Hle|Hgt].
  - repeat constructor. exact Hle.
  - apply Forall_bind, Forall_forall. intros w _.
    apply hard_cut_fits. lia.
Qed.

Lemma units_concat (t : Text) : concat (units M t) = t.
Proof.
  unfold units. rewrite <- (pieces_concat sentence_end t) at 2.
  induction (pieces sentence_end t) as [|s ss IH]; [reflexivity|].
  rewrite bind_cons, concat_app, IH, split_sentence_concat. reflexivity.
Qed.

Lemma units_fit (t : Text) : fits (units M t).
Proof.
  unfold units. apply Forall_bind, Forall_forall. intros s _.
  apply split_sentence_fits.
Qed.

Lemma emit_concat (cur : Text) : concat (emit cur) = cur.
Proof. destruct cur; simpl; [reflexivity | by rewrite app_nil_r]. Qed.

Lemma emit_fits (cur : Text) : length cur ≤ M → fits (emit cur).
Proof. destruct cur; simpl; repeat constructor; assumption. Qed.

Lemma pack_concat (cur : Text) (us : list Text) :
  concat (pack M cur us) = cur ++ concat us.
Proof.
  revert cur. induction us as [|u us IH]; intros cur; simpl.
  - by rewrite emit_concat, app_nil_r.
  - destruct (length cur + length u <=? M).
    + by rewrite IH, app_assoc.
    + by rewrite concat_app, emit_concat, IH.
Qed.

Lemma pack_fits (cur : Text) (us : list Text) :
  length cur ≤ M → fits us → fits (pack M cur us).
Proof.
  intros Hcur Hus. revert cur Hcur.
  induction Hus as [|u us Hu _ IH]; intros cur Hcur; simpl.
  - by apply emit_fits.
  - destruct (Nat.leb_spec (length cur + length u) M) as [Hle|Hgt].
    + apply IH. rewrite length_app. exact Hle.
    + apply Forall_app. split; [by apply emit_fits | by apply IH].
Qed.

Lemma chunk_text_imap (f : nat → Text → Chunk) (l : list Text) :
  (∀ i u, chunk_text (f i u) = u) → map chunk_text (imap f l) = l.
Proof.
  revert f. induction l as [|u l IH]; intros f Hf; [reflexivity|].
  rewrite imap_cons. simpl. rewrite Hf, IH; [reflexivity|].
  intros i v. apply Hf.
Qed.

(** C3: for a positive limit, the texts of the chunks concatenated in
    order are the original text, character for character (the modelled
    chunker normalises no white space), and no chunk is longer than the
    limit; the chunks carry their positions as indices. *)
Theorem chunker_reconstructs_within_limit (t : Text) :
  concat (map chunk_text (chunker t M)) = t
  ∧ Forall (λ c, length (chunk_text c) ≤ M) (chunker t M)
  ∧ (∀ i c, chunker t M !! i = Some c → chunk_index c = i).
Proof.
  unfold chunker. split; [|split].
  - rewrite chunk_text_imap by reflexivity.
    by rewrite pack_concat, units_concat.
  - apply (Forall_fmap chunk_text (λ u : Text, length u ≤ M)).
    change (fmap chunk_text) with (map chunk_text).
    rewrite (chunk_text_imap mkChunk) by reflexivity.
    apply pack_fits; [simpl; lia | apply units_fit].
  - intros i c. rewrite list_lookup_imap.
    destruct (pack M [] (units M t) !! i); simpl; [|discriminate].
    by intros [= <-].
Qed.
End Chunker.

Lemma chunker_reconstructs_within_limit_witness :
  0 < 12
  ∧ concat (map chunk_text (chunker sample_text 12)) = sample_text
  ∧ Forall (λ c, length (chunk_text c) ≤ 12) (chunker sample_text 12).
Proof.
  assert (0 < 12) as Hpos by lia.
  split; [exact Hpos|].
  destruct (chunker_reconstructs_within_limit 12 Hpos sample_text) as (H1 & H2 & _).
  split; [exact H1 | exact H2].
Defined.

(** ** Voice assignment *)

Section Voices.
Variable voices : list string.

Lemma assign_from_lookup (start : nat) (turns : list Turn) (i : nat) :
  assign_from voices start turns !! i
  = (λ t, (voice_of_turn voices (start + i) t, utterance t)) <$> turns !! i.
Proof.
  revert start i. induction turns as [|t turns IH]; intros start i.
  - by destruct i.
  - destruct i as [|i]; simpl.
    + by rewrite Nat.add_0_r.
    + rewrite IH. by replace (S start + i) with (start + S i) by lia.
Qed.

Lemma assign_from_utterances (start : nat) (turns : list Turn) :
  map snd (assign_from voices start turns) = map utterance turns.
Proof.
  revert start. induction turns as [|t turns IH]; intros start; simpl;
    [reflexivity | by rewrite IH].
Qed.

Lemma rotation_voice_lookup (i : nat) :
  1 ≤ length voices →
  voices !! (i mod length voices) = Some (rotation_voice voices i).
Proof.
  intros HK. unfold rotation_voice.
  destruct (lookup_lt_is_Some_2 voices (i mod length voices)) as [v Hv].
  - apply Nat.mod_upper_bound. lia.
  - by rewrite Hv.
Qed.

(** C6: with a rotation of length K >= 1, every turn of the script gets
    exactly one voice and keeps its utterance, at its own position: the
    voice is the label of the turn when that label is one of the
    configured voices, and the voice number [i mod K] of the rotation for
    the turn number [i] otherwise (no label, or a label outside the
    voice set); no turn is dropped. *)
Theorem voices_assigned_cyclically (turns : list Turn) :
  1 ≤ length voices →
  length (assign_voices voices turns) = length turns
  ∧ map snd (assign_voices voices turns) = map utterance turns
  ∧ ∀ i t, turns !! i = Some t →
      ∃ v, assign_voices voices turns !! i = Some (v, utterance t)
           ∧ v ∈ voices
           ∧ (∀ l, speaker_label t = Some l → l ∈ voices → v = l)
           ∧ ((∀ l, speaker_label t = Some l → l ∉ voices) →
              voices !! (i mod length voices) = Some v).
Proof.
  intros HK. unfold assign_voices. split; [|split].
  - rewrite <- (length_map snd), assign_from_utterances. apply length_map.
  - apply assign_from_utterances.
  - intros i t Ht. exists (voice_of_turn voices i t).
    rewrite assign_from_lookup, Ht. simpl. split; [reflexivity|].
    pose proof (rotation_voice_lookup i HK) as Hrot.
    unfold voice_of_turn, valid_label.
    destruct (speaker_label t) as [l|]; simpl.
    + case_bool_decide as Hl; simpl.
      * repeat split; [exact Hl | by intros l' [= <-] |].
        intros Hout. by destruct (Hout l).
      * repeat split; [by eapply list_elem_of_lookup_2 | | done].
        intros l' [= <-] Hin. by destruct Hl.
    + repeat split; [by eapply list_elem_of_lookup_2 | done | done].
Qed.
End Voices.

Lemma voices_assigned_cyclically_witness :
  1 ≤ length audio_voices
  ∧ assign_voices audio_voices sample_turns
    = [("echo", "Welcome."); ("echo", "Thanks.");
       ("fable", "Shall we start?"); ("onyx", "Yes.")]
  ∧ map snd (assign_voices audio_voices sample_turns) = map utterance sample_turns.
Proof.
  assert (1 ≤ length audio_voices) as HK by (simpl; lia).
  split; [exact HK|]. split; [reflexivity|].
  exact (proj1 (proj2 (voices_assigned_cyclically audio_voices sample_turns HK))).
Defined.

(** ** Synthesizer *)

Lemma retry_ext (tts tts' : nat → Outcome) (remaining made : nat) :
  (∀ k, tts k = tts' k) → retry tts remaining made = retry tts' remaining made.
Proof.
  intros Hext. revert made.
  induction remaining as [|r IH]; intros made; simpl; [reflexivity|].
  rewrite <- Hext. destruct (tts made); auto.
Qed.

(** Transient answers use up one attempt each and lead to the next call. *)
Lemma retry_after_transients (tts : nat → Outcome) (k remaining made : nat) :
  (∀ j, made ≤ j < made + k → tts j = Transient) →
  retry tts (k + remaining) made = retry tts remaining (made + k).
Proof.
  revert made. induction k as [|k IH]; intros made Htr; simpl.
  - by rewrite Nat.add_0_r.
  - rewrite (Htr made) by lia. rewrite IH.
    + f_equal. lia.
    + intros j Hj. apply Htr. lia.
Qed.

Lemma synthesize_after_transients (max_attempts : nat) (tts : nat → Outcome) (k : nat) :
  k < max_attempts →
  (∀ j, j < k → tts j = Transient) →
  synthesize max_attempts tts =
    match tts k with
    | Audio a => mkSynthesis (Synthesized a) (S k)
    | Permanent => mkSynthesis PermanentFailure (S k)
    | Transient => retry tts (max_attempts - S k) (S k)
    end.
Proof.
  intros Hk Htr. unfold synthesize.
  replace max_attempts with (k + S (max_attempts - S k)) at 1 by lia.
  rewrite retry_after_transients by (intros j Hj; apply Htr; lia).
  simpl. reflexivity.
Qed.

(** C7: under an attempt ceiling of at least 3, a capability that fails
    transiently on the first two calls and succeeds on the third gives a
    success after exactly 3 attempts; a permanent failure ends the
    synthesis at the attempt that met it, without another call; and the
    result for a chunk does not depend on what the capability answers for
    the other chunks. *)
Theorem synthesize_retries_transient_only (max_attempts : nat) (tts : nat → Outcome) :
  3 ≤ max_attempts →
  (∀ a, tts 0 = Transient → tts 1 = Transient → tts 2 = Audio a →
     synthesize max_attempts tts = mkSynthesis (Synthesized a) 3)
  ∧ (tts 0 = Permanent →
     synthesize max_attempts tts = mkSynthesis PermanentFailure 1)
  ∧ (∀ k, k < max_attempts → (∀ j, j < k → tts j = Transient) →
     tts k = Permanent →
     synthesize max_attempts tts = mkSynthesis PermanentFailure (S k))
  ∧ (∀ (per_chunk per_chunk' : nat → nat → Outcome) (chunks : list Chunk) (bad : nat),
     (∀ i k, i ≠ bad → per_chunk i k = per_chunk' i k) →
     List.filter (λ r, negb (r.1 =? bad)) (synthesize_all max_attempts per_chunk chunks)
     = List.filter (λ r, negb (r.1 =? bad)) (synthesize_all max_attempts per_chunk' chunks)).
Proof.
  intros Hmax. repeat split.
  - intros a H0 H1 H2.
    rewrite (synthesize_after_transients max_attempts tts 2), H2; [reflexivity|lia|].
    intros [|[|j]] Hj; [exact H0 | exact H1 | lia].
  - intros H0.
    rewrite (synthesize_after_transients max_attempts tts 0), H0; [reflexivity|lia|].
    intros j Hj. lia.
  - intros k Hk Htr Hperm.
    by rewrite (synthesize_after_transients max_attempts tts k), Hperm.
  - intros per_chunk per_chunk' chunks bad Hsame.
    unfold synthesize_all.
    induction chunks as [|c chunks IH]; simpl; [reflexivity|].
    destruct (Nat.eqb_spec (chunk_index c) bad) as [Heq|Hne]; simpl; [exact IH|].
    rewrite IH. f_equal. f_equal. unfold synthesize.
    apply retry_ext. intros k. by apply Hsame.
Qed.

Lemma synthesize_retries_transient_only_witness :
  3 ≤ 3
  ∧ synthesize 3 flaky_tts
    = mkSynthesis (Synthesized [Byte.x49; Byte.x44; Byte.x33]) 3
  ∧ synthesize 3 rejecting_tts = mkSynthesis PermanentFailure 1.
Proof.
  assert (3 ≤ 3) as Hmax by lia.
  split; [exact Hmax|]. split.
  - apply (proj1 (synthesize_retries_transient_only 3 flaky_tts Hmax));
      reflexivity.
  - apply (proj1 (proj2 (synthesize_retries_transient_only 3 rejecting_tts Hmax)));
      reflexivity.
Defined.

(** * Further properties of the code *)

(** ** [process_with] *)

(** X1: [process_with] changes no field other than [extracted_text],
    whatever the outcome, and a call that raises leaves the whole document
    as it was. *)
Theorem process_with_frame (D : Document) (P : DocumentProcessor) :
  let D' := (process_with D P).2 in
  (source D' = source D ∧ title D' = title D ∧ content D' = content D
   ∧ mime_type D' = mime_type D ∧ url D' = url D
   ∧ timestamp D' = timestamp D ∧ metadata D' = metadata D)
  ∧ (is_ok (process_with D P).1 = false → D' = D).
Proof.
  destruct (process_with_cases D P)
    as [[_ ->]|[[_ (e & _ & ->)]|[_ (s & _ & ->)]]]; simpl;
    (split; [by repeat split | done]).
Qed.

Lemma process_with_frame_witness :
  (process_with scanned_note text_processor).2 = scanned_note.
Proof.
  apply (proj2 (process_with_frame scanned_note text_processor)). reflexivity.
Defined.



(** A [DocumentProcessor] is the object without state that it describes:
    both embeddings of [process_with] agree on it. *)
Lemma process_with_as_object (D : Document) (P : DocumentProcessor) :
  process_with_object D (as_object P) () = (process_with D P, ()).
Proof.
  unfold process_with_object, process_with. simpl.
  destruct (supports_mime_type P (mime_type D)); simpl; [|reflexivity].
  destruct (process P (content D)); reflexivity.
Qed.

(** X2: for a processor that keeps no state between calls, processing a
    document again with the same processor gives the same outcome and
    leaves the document as the first call left it.  The condition is
    needed: a processor that counts its calls stores another text the
    second time. *)
Theorem process_with_stateless_idempotent {S} (D : Document)
    (P : ProcessorObject S) (st : S) :
  stateless P →
  let once := process_with_object D P st in
  process_with_object once.1.2 P once.2 = once
  ∧ (let first := process_with_object note counting_processor 0 in
     extracted_text (process_with_object first.1.2 counting_processor first.2).1.2
     ≠ extracted_text first.1.2).
Proof.
  intros [Hsup Hproc]. split; [|simpl; discriminate].
  unfold process_with_object.
  pose proof (Hsup st (mime_type D)) as H1.
  destruct (supports_call P st (mime_type D)) as [[supported|e] st1] eqn:Hs;
    simpl in H1; subst st1; simpl.
  - destruct supported; simpl.
    + pose proof (Hproc st (content D)) as H2.
      destruct (process_call P st (content D)) as [[v|e] st2] eqn:Hp;
        simpl in H2; subst st2; simpl.
      * rewrite Hs. simpl. rewrite Hp. reflexivity.
      * rewrite Hs. simpl. rewrite Hp. reflexivity.
    + rewrite Hs. reflexivity.
  - rewrite Hs. reflexivity.
Qed.

Lemma process_with_stateless_idempotent_witness :
  stateless silent_processor
  ∧ process_with_object (process_with_object note silent_processor ()).1.2
      silent_processor () = process_with_object note silent_processor ().
Proof.
  assert (stateless silent_processor) as Hst by (split; reflexivity).
  split; [exact Hst|].
  exact (proj1 (process_with_stateless_idempotent note silent_processor () Hst)).
Defined.

(** X4: for any processor object, [process_with] returns exactly when
    [supports_mime_type] gives a true value and [process] returns; it
    returns what [process] returned and stores the same value in
    [extracted_text], [None] included.  When it raises, the document is
    as before and the exception is the one [supports_mime_type] raised,
    the [ValueError] of the guard, or the one [process] raised. *)
Theorem process_with_object_outcome {S} (D : Document) (P : ProcessorObject S) (st : S) :
  let r := (process_with_object D P st).1.1 in
  let D' := (process_with_object D P st).1.2 in
  let st' := (process_with_object D P st).2 in
  (∀ v, r = Ok v ↔
        ∃ st1, supports_call P st (mime_type D) = (Ok true, st1)
               ∧ process_call P st1 (content D) = (Ok v, st'))
  ∧ (∀ v, r = Ok v → extracted_text D' = v)
  ∧ (∀ e, r = Raise e →
       D' = D
       ∧ (supports_call P st (mime_type D) = (Raise e, st')
          ∨ (supports_call P st (mime_type D) = (Ok false, st')
             ∧ ∃ msg, e = ValueError msg)
          ∨ ∃ st1, supports_call P st (mime_type D) = (Ok true, st1)
                   ∧ process_call P st1 (content D) = (Raise e, st'))).
Proof.
  unfold process_with_object.
  destruct (supports_call P st (mime_type D)) as [[[|]|e0] st1]; simpl.
  - destruct (process_call P st1 (content D)) as [[v0|e0] st2] eqn:Hp; simpl.
    + split; [|split].
      * intros v. split.
        -- intros [= <-]. eauto.
        -- intros (st1' & [= <-] & Hv). rewrite Hp in Hv. congruence.
      * by intros v [= <-].
      * discriminate.
    + split; [|split].
      * intros v. split; [discriminate|].
        intros (st1' & [= <-] & Hv). rewrite Hp in Hv. congruence.
      * discriminate.
      * intros e [= <-]. split; [reflexivity|]. right. right. eauto.
  - split; [|split].
    + intros v. split; [discriminate | by intros (st1' & [=] & _)].
    + discriminate.
    + intros e [= <-]. split; [reflexivity|]. right. left. eauto.
  - split; [|split].
    + intros v. split; [discriminate | by intros (st1' & [=] & _)].
    + discriminate.
    + intros e [= <-]. split; [reflexivity|]. by left.
Qed.

Lemma process_with_object_outcome_witness :
  (process_with_object note silent_processor ()).1.1 = Ok None
  ∧ extracted_text (process_with_object note silent_processor ()).1.2 = None.
Proof.
  destruct (process_with_object_outcome note silent_processor ()) as (H1 & H2 & _).
  assert ((process_with_object note silent_processor ()).1.1 = Ok None) as Hr.
  { apply H1. exists (). split; reflexivity. }
  split; [exact Hr | exact (H2 None Hr)].
Defined.

(** ** The PdfReader cell and [str.join] *)

Lemma string_length_app (a b : string) :
  String.length (a +:+ b) = String.length a + String.length b.
Proof.
  induction a as [|x a IH]; [reflexivity|].
  rewrite string_app_cons. simpl. by rewrite IH.
Qed.

Lemma extract_pages_ok_iff (pages : list PdfPage) :
  is_ok (extract_pages pages) = true
  ↔ Forall (λ p, is_ok (extract_text p) = true) pages.
Proof.
  unfold extract_pages. induction pages as [|p pages IH]; simpl.
  - split; [constructor | reflexivity].
  - rewrite Forall_cons, <- IH.
    destruct (extract_text p) as [t|e]; simpl; [|by intuition].
    destruct (mapM extract_text pages); simpl; by intuition.
Qed.

Lemma extract_pages_app (ps1 ps2 : list PdfPage) (ts1 ts2 : list string) :
  extract_pages ps1 = Ok ts1 → extract_pages ps2 = Ok ts2 →
  extract_pages (ps1 ++ ps2) = Ok (ts1 ++ ts2).
Proof.
  unfold extract_pages. revert ts1.
  induction ps1 as [|p ps1 IH]; intros ts1; simpl.
  - intros [= <-] H2. exact H2.
  - destruct (extract_text p) as [t|e]; simpl; [|discriminate].
    destruct (mapM extract_text ps1) as [ts|e] eqn:Hts; simpl; [|discriminate].
    intros [= <-] H2. by rewrite (IH ts eq_refl H2).
Qed.

(** X5: the PdfReader cell gives a text exactly for a reader with at least
    one page all of whose pages extract.  A reader without pages raises
    [IndexError] at [reader.pages[0]], although the join alone would give
    the empty string. *)
Theorem read_pdf_succeeds_iff (pages : list PdfPage) :
  (is_ok (read_pdf pages) = true
   ↔ pages ≠ [] ∧ Forall (λ p, is_ok (extract_text p) = true) pages)
  ∧ (pages = [] →
     (∃ msg, read_pdf pages = Raise (IndexError msg)) ∧ pdf_text pages = Ok "").
Proof.
  split.
  - rewrite <- extract_pages_ok_iff. unfold read_pdf, pdf_text.
    destruct pages as [|p pages]; [simpl; by intuition|].
    change (is_ok (extract_pages (p :: pages)
                   ≫= λ texts, mret (str_join blank_line texts)) = true
            ↔ p :: pages ≠ [] ∧ is_ok (extract_pages (p :: pages)) = true).
    destruct (extract_pages (p :: pages)); simpl; by intuition.
  - intros ->. split; [eexists|]; reflexivity.
Qed.

Lemma read_pdf_succeeds_iff_witness :
  is_ok (read_pdf two_pages) = true ∧ pdf_text [] = Ok "".
Proof.
  split.
  - apply (proj1 (read_pdf_succeeds_iff two_pages)).
    split; [discriminate | repeat constructor].
  - apply (proj2 (read_pdf_succeeds_iff [])). reflexivity.
Defined.

Lemma join_from_cons (sep acc x : string) (rest : list string) :
  join_from sep acc (x :: rest) = acc +:+ sep +:+ join_from sep x rest.
Proof.
  simpl. rewrite join_from_app, (join_from_app sep x), !string_app_assoc.
  reflexivity.
Qed.

Lemma join_from_snoc (sep acc : string) (l1 l2 : list string) :
  join_from sep acc (l1 ++ l2) = join_from sep (join_from sep acc l1) l2.
Proof.
  revert acc. induction l1 as [|x l1 IH]; intros acc; simpl; [reflexivity|].
  apply IH.
Qed.

(** X6: [str.join] over two non-empty lists put one after the other is the
    two joins with one separator between them.  So the text of the pages of
    one PDF followed by the pages of another is the first text, a blank
    line, and the second text. *)
Theorem str_join_app (sep : string) (xs ys : list string) :
  xs ≠ [] → ys ≠ [] →
  str_join sep (xs ++ ys) = str_join sep xs +:+ sep +:+ str_join sep ys
  ∧ (∀ ps1 ps2, extract_pages ps1 = Ok xs → extract_pages ps2 = Ok ys →
       pdf_text (ps1 ++ ps2)
       = a ← pdf_text ps1; b ← pdf_text ps2; mret (a +:+ blank_line +:+ b)).
Proof.
  intros Hxs Hys.
  assert (∀ s, str_join s (xs ++ ys) = str_join s xs +:+ s +:+ str_join s ys) as Happ.
  { intros s. destruct xs as [|x xs]; [done|]. destruct ys as [|y ys]; [done|].
    change (str_join s ((x :: xs) ++ y :: ys)) with (join_from s x (xs ++ y :: ys)).
    change (str_join s (x :: xs)) with (join_from s x xs).
    change (str_join s (y :: ys)) with (join_from s y ys).
    rewrite join_from_snoc, join_from_cons. reflexivity. }
  split; [apply Happ|].
  intros ps1 ps2 H1 H2. unfold pdf_text.
  rewrite (extract_pages_app _ _ _ _ H1 H2), H1, H2. simpl.
  by rewrite Happ.
Qed.

Lemma str_join_app_witness :
  str_join ", " (["a"; "b"] ++ ["c"]) = str_join ", " ["a"; "b"] +:+ ", " +:+ str_join ", " ["c"].
Proof.
  apply (str_join_app ", " ["a"; "b"] ["c"]); discriminate.
Defined.

(** X7: [str.join] adds nothing but separators: the length of the result is
    the total length of the items plus one separator for each item after
    the first.  The listing of the titles of the fetched documents has one
    newline less than there are documents. *)
Theorem str_join_length (sep : string) (items : list string) :
  String.length (str_join sep items)
  = sum_list (String.length <$> items) + String.length sep * (length items - 1)
  ∧ (∀ documents : list Document,
       String.length (titles_listing documents)
       = sum_list (String.length ∘ title <$> documents) + (length documents - 1)).
Proof.
  assert (∀ s l acc, String.length (join_from s acc l)
            = String.length acc + sum_list (String.length <$> l)
              + String.length s * length l) as Hfrom.
  { intros s l. induction l as [|x l IH]; intros acc; simpl; [lia|].
    rewrite IH, !string_length_app, Nat.mul_succ_r.
    change (list_fmap string nat String.length l) with (String.length <$> l).
    lia. }
  assert (∀ s l, String.length (str_join s l)
            = sum_list (String.length <$> l) + String.length s * (length l - 1))
    as Hjoin.
  { intros s [|x l]; simpl; [lia|]. rewrite Hfrom, Nat.sub_0_r.
    change (list_fmap string nat String.length l) with (String.length <$> l).
    lia. }
  split; [apply Hjoin|].
  intros documents. unfold titles_listing. rewrite Hjoin, length_map.
  rewrite <- list_fmap_compose. simpl. lia.
Qed.

Lemma str_prefix_length (n : nat) (t : string) :
  String.length (str_prefix n t) = n `min` String.length t.
Proof.
  revert t. induction n as [|n IH]; intros [|c t]; simpl; try reflexivity.
  by rewrite IH.
Qed.

(** X8: [text[:n]] is the longest prefix of [text] of at most [n]
    characters: its length is the smaller of [n] and the length of the
    text, the text continues it, and a text of at most [n] characters is
    kept whole.  [text1] is such a prefix for 500 characters. *)
Theorem str_prefix_spec (n : nat) (text : string) :
  String.length (str_prefix n text) = n `min` String.length text
  ∧ (∃ rest, text = str_prefix n text +:+ rest)
  ∧ (String.length text ≤ n → str_prefix n text = text)
  ∧ String.length (text1 text) ≤ 500.
Proof.
  repeat split.
  - apply str_prefix_length.
  - revert text. induction n as [|n IH]; intros text.
    + exists text. by destruct text.
    + destruct text as [|c t]; [by exists ""|].
      destruct (IH t) as [rest Hrest]. exists rest. simpl.
      rewrite string_app_cons. by rewrite <- Hrest.
  - revert text. induction n as [|n IH]; intros [|c t]; simpl; try done; [lia|].
    intros Hle. rewrite IH; [done|lia].
  - unfold text1. rewrite str_prefix_length. lia.
Qed.

Lemma str_prefix_spec_witness : str_prefix 5 "abc" = "abc".
Proof.
  apply (proj1 (proj2 (proj2 (str_prefix_spec 5 "abc")))). simpl. lia.
Defined.

Lemma str_prefix_app (n : nat) (a b : string) :
  n ≤ String.length a → str_prefix n (a +:+ b) = str_prefix n a.
Proof.
  revert a. induction n as [|n IH]; intros a Hle; [reflexivity|].
  destruct a as [|c a]; simpl in Hle; [lia|].
  rewrite string_app_cons. simpl. rewrite IH; [done | lia].
Qed.

(** X9: when every page extracts, the PdfReader cell leaves in [text1]
    at most 500 characters that [text] starts with, and if the first page
    alone has 500 characters or more, [text1] is the first 500 characters
    of that page, whatever the other pages hold. *)
Theorem pdf_cell_text1 (first : PdfPage) (others : list PdfPage)
    (t : string) (ts : list string) :
  extract_text first = Ok t →
  extract_pages others = Ok ts →
  ∃ text, pdf_cell (first :: others) = Ok (text, text1 text)
          ∧ text = str_join blank_line (t :: ts)
          ∧ String.length (text1 text) = 500 `min` String.length text
          ∧ (500 ≤ String.length t → text1 text = text1 t).
Proof.
  intros Ht Hts. exists (str_join blank_line (t :: ts)).
  assert (extract_pages (first :: others) = Ok (t :: ts)) as Hall.
  { unfold extract_pages in *. simpl. rewrite Ht. simpl. by rewrite Hts. }
  split; [|split; [reflexivity|split]].
  - unfold pdf_cell, read_pdf, pdf_text.
    change ((first :: others) !! 0) with (Some first). cbv beta iota.
    rewrite Hall. reflexivity.
  - apply str_prefix_length.
  - intros Hlong. unfold text1, str_join. rewrite join_from_app.
    by apply str_prefix_app.
Qed.

Lemma pdf_cell_text1_witness :
  ∃ text, pdf_cell two_pages = Ok (text, text1 text)
          ∧ String.length (text1 text) = 500 `min` String.length text.
Proof.
  destruct (pdf_cell_text1 (mkPage (Ok "page one")) [mkPage (Ok "page two")]
              "page one" ["page two"] eq_refl eq_refl) as (text & H1 & _ & H2 & _).
  exists text. split; [exact H1 | exact H2].
Defined.

(** X10: the list comprehension over the pages gives a list of texts
    exactly when every page extracts, one text per page in page order; and
    when it raises, the exception is that of a page before which every
    page extracted. *)
Theorem extract_pages_spec (pages : list PdfPage) :
  (∀ texts, extract_pages pages = Ok texts
     ↔ Forall2 (λ p t, extract_text p = Ok t) pages texts)
  ∧ (∀ e, extract_pages pages = Raise e →
       ∃ good bad rest, pages = good ++ bad :: rest
         ∧ Forall (λ p, is_ok (extract_text p) = true) good
         ∧ extract_text bad = Raise e).
Proof.
  split.
  - intros texts. split; [|apply extract_pages_all_ok].
    unfold extract_pages. revert texts.
    induction pages as [|p pages IH]; intros texts; simpl.
    + intros [= <-]. constructor.
    + destruct (extract_text p) as [t|e] eqn:Hp; simpl; [|discriminate].
      destruct (mapM extract_text pages) as [ts|e]; simpl; [|discriminate].
      intros [= <-]. constructor; [exact Hp | by apply IH].
  - unfold extract_pages. induction pages as [|p pages IH]; intros e; simpl.
    + discriminate.
    + destruct (extract_text p) as [t|e'] eqn:Hp; simpl.
      * destruct (mapM extract_text pages) as [ts|e'']; simpl; [discriminate|].
        intros [= <-]. destruct (IH e'' eq_refl) as (good & bad & rest & -> & Hg & Hb).
        exists (p :: good), bad, rest. repeat split; [|exact Hb].
        constructor; [by rewrite Hp | exact Hg].
      * intros [= <-]. exists [], p, pages. repeat split; [constructor | exact Hp].
Qed.

Lemma extract_pages_spec_witness :
  ∃ good bad rest, damaged_pdf = good ++ bad :: rest
    ∧ Forall (λ p, is_ok (extract_text p) = true) good
    ∧ extract_text bad = Raise unreadable.
Proof.
  exact (proj2 (extract_pages_spec damaged_pdf) unreadable eq_refl).
Defined.

(** ** The Gmail cells *)

(** X11: only the key ['messages'] of the response decides the list: adding,
    replacing or removing any other key (a page token, the size estimate)
    changes nothing, and a list stored under ['messages'] is what is
    returned. *)
Theorem messages_only_reads_its_key (results : gmap string ApiValue)
    (key : string) (v : ApiValue) :
  key ≠ "messages" →
  messages (<[key := v]> results) = messages results
  ∧ messages (delete key results) = messages results
  ∧ (∀ l, messages (<["messages" := VMessages l]> results) = VMessages l).
Proof.
  intros Hkey. unfold messages, dict_get. repeat split.
  - by rewrite lookup_insert_ne.
  - by rewrite lookup_delete_ne.
  - intros l. by rewrite lookup_insert_eq.
Qed.

Lemma messages_only_reads_its_key_witness :
  messages paged_response = messages two_match_response.
Proof.
  apply (messages_only_reads_its_key two_match_response "nextPageToken" (VStr "0042")).
  discriminate.
Defined.

Lemma get_parts_filter (p : Payload) :
  get_parts p = List.filter has_filename (post_order p).
Proof.
  induction p as [i m f|i m f ps IH] using Payload_tree_ind.
  - rewrite get_parts_unfold. simpl. unfold has_filename. simpl.
    destruct (truthy f); reflexivity.
  - rewrite get_parts_unfold. simpl post_order.
    rewrite List.filter_app, <- List.concat_filter_map, map_map.
    assert (map get_parts ps = map (λ q, List.filter has_filename (post_order q)) ps)
      as ->.
    { induction IH as [|q ps Hq _ IHps]; simpl; [reflexivity|].
      by rewrite Hq, IHps. }
    simpl. unfold has_filename. simpl. destruct (truthy f); reflexivity.
Qed.

Lemma sum_list_elem_le {A} (f : A → nat) (l : list A) (x : A) :
  x ∈ l → f x ≤ sum_list (map f l).
Proof.
  induction 1 as [x l|x y l _ IH]; simpl; lia.
Qed.

Lemma post_order_length (p : Payload) : length (post_order p) = payload_size p.
Proof.
  induction p as [i m f|i m f ps IH] using Payload_tree_ind; [reflexivity|].
  simpl. rewrite length_app. simpl.
  assert (length (concat (map post_order ps)) = sum_list (map payload_size ps)) as ->.
  { induction IH as [|q ps Hq _ IHps]; simpl; [reflexivity|].
    by rewrite length_app, Hq, IHps. }
  lia.
Qed.

Lemma elem_of_concat_map {A B} (f : A → list B) (l : list A) (y : B) :
  y ∈ concat (map f l) ↔ ∃ x, x ∈ l ∧ y ∈ f x.
Proof.
  induction l as [|a l IH]; simpl.
  - split; [by intros ?%elem_of_nil | by intros (x & ?%elem_of_nil & _)].
  - rewrite elem_of_app, IH. split.
    + intros [Hy|(x & Hx & Hy)]; [exists a | exists x];
        (split; [|exact Hy]); [left | by right].
    + intros (x & Hx & Hy). apply elem_of_cons in Hx as [->|Hx]; [by left|].
      right. eauto.
Qed.

(** The payloads below a payload are smaller trees. *)
Lemma post_order_nested_smaller (i m : string) (f : option string)
    (ps : list Payload) (q : Payload) :
  q ∈ concat (map post_order ps) →
  payload_size q < payload_size (mkPayload i m f (Some ps)).
Proof.
  assert (∀ p q', q' ∈ post_order p → payload_size q' ≤ payload_size p) as Hle.
  { induction p as [i' m' f'|i' m' f' ps' IH] using Payload_tree_ind; intros q'.
    - simpl. intros ->%list_elem_of_singleton. done.
    - simpl post_order. rewrite elem_of_app, list_elem_of_singleton.
      intros [Hin| ->]; [|done].
      apply elem_of_concat_map in Hin as (c & Hc & Hq).
      rewrite Forall_forall in IH. specialize (IH c Hc q' Hq).
      pose proof (sum_list_elem_le payload_size ps' c Hc). simpl. lia. }
  intros Hin.
  apply elem_of_concat_map in Hin as (c & Hc & Hq).
  specialize (Hle c q Hq).
  pose proof (sum_list_elem_le payload_size ps c Hc). simpl. lia.
Qed.

(** X12: the payload given to [get_parts] is itself among the results
    exactly when its filename is truthy, container or not; it is then the
    last result, after everything found below it, and occurs only there. *)
Theorem get_parts_returns_root_last (payload : Payload) :
  (payload ∈ get_parts payload ↔ truthy (filename payload) = true)
  ∧ (truthy (filename payload) = true →
     last (get_parts payload) = Some payload
     ∧ ∃ nested, get_parts payload = nested ++ [payload] ∧ payload ∉ nested)
  ∧ (truthy (filename payload) = false → last (get_parts payload) ≠ Some payload).
Proof.
  assert (payload ∈ get_parts payload ↔ truthy (filename payload) = true) as Hroot.
  { rewrite get_parts_filter, list_elem_of_In, List.filter_In. unfold has_filename.
    split; [by intros [_ H]|]. intros H. split; [|exact H].
    apply list_elem_of_In. destruct payload as [i m f sub]. simpl.
    apply elem_of_app. right. by apply list_elem_of_singleton. }
  split; [exact Hroot|]. split.
  - intros Hf. destruct payload as [i m f sub]. simpl in Hf.
    rewrite get_parts_unfold, Hf. split; [apply last_snoc|].
    eexists. split; [reflexivity|].
    destruct sub as [ps|]; [|by intros ?%elem_of_nil].
    intros Hin. apply elem_of_concat_map in Hin as (c & Hc & Hin).
    rewrite get_parts_filter, list_elem_of_In, List.filter_In in Hin.
    destruct Hin as [Hin _]. apply list_elem_of_In in Hin.
    assert (mkPayload i m f (Some ps) ∈ concat (map post_order ps)) as Hbelow.
    { apply elem_of_concat_map. eauto. }
    apply (post_order_nested_smaller i m f) in Hbelow. lia.
  - intros Hf Hlast. apply last_Some_elem_of, Hroot in Hlast. congruence.
Qed.

Lemma get_parts_returns_root_last_witness :
  last (get_parts forwarded_part) = Some forwarded_part
  ∧ last (get_parts mixed_payload) ≠ Some mixed_payload.
Proof.
  split.
  - apply (proj1 (proj1 (proj2 (get_parts_returns_root_last forwarded_part))
                    eq_refl)).
  - apply (proj2 (proj2 (get_parts_returns_root_last mixed_payload))). reflexivity.
Defined.

Lemma filter_nil_iff {A} (f : A → bool) (l : list A) :
  List.filter f l = [] ↔ ∀ x, x ∈ l → f x = false.
Proof.
  induction l as [|a l IH]; simpl.
  - split; [by intros _ x ?%elem_of_nil | done].
  - destruct (f a) eqn:Ha.
    + split; [discriminate|]. intros H. specialize (H a (list_elem_of_here a l)).
      congruence.
    + rewrite IH. split.
      * intros H x [->|Hx]%elem_of_cons; auto.
      * intros H x Hx. apply H. by right.
Qed.

(** X13: [get_parts] gives the empty list exactly when no payload of the
    tree has a truthy filename (a message without attachments), and never
    more results than the tree has payloads. *)
Theorem get_parts_empty_iff (payload : Payload) :
  (get_parts payload = []
   ↔ ∀ q, q ∈ post_order payload → truthy (filename q) = false)
  ∧ length (get_parts payload) ≤ payload_size payload.
Proof.
  rewrite get_parts_filter. split.
  - apply filter_nil_iff.
  - rewrite <- post_order_length. apply List.filter_length_le.
Qed.

Lemma get_parts_empty_iff_witness : get_parts body_part = [].
Proof.
  apply (proj1 (get_parts_empty_iff body_part)).
  intros q ->%list_elem_of_singleton. reflexivity.
Defined.

(** X14: a container without a truthy filename is transparent: its results
    are the results of its nested parts, in the order of ['parts'].  One
    that wraps a single payload gives the results of that payload, and one
    whose parts are two lists one after the other gives the results for
    the first list followed by those for the second. *)
Theorem get_parts_container_transparent (i m : string) (f : option string)
    (ps1 ps2 : list Payload) (p : Payload) :
  truthy f = false →
  get_parts (mkPayload i m f (Some [p])) = get_parts p
  ∧ get_parts (mkPayload i m f (Some (ps1 ++ ps2)))
    = get_parts (mkPayload i m f (Some ps1)) ++ get_parts (mkPayload i m f (Some ps2))
  ∧ get_parts (mkPayload i m f (Some [])) = get_parts (mkPayload i m f None).
Proof.
  intros Hf. rewrite !get_parts_unfold, Hf, !app_nil_r. simpl.
  rewrite app_nil_r, map_app, concat_app. done.
Qed.

Lemma get_parts_container_transparent_witness :
  get_parts wrapped_pdf = get_parts pdf_part.
Proof.
  apply (get_parts_container_transparent "0" "multipart/mixed" None [] [] pdf_part).
  reflexivity.
Defined.

(** X15: the [get_parts] cell shows a part exactly when the response lists
    at least two messages, the second one can be fetched, and its payload
    has at least two named parts; the part shown is then the second result
    of [get_parts].  With fewer messages (none matched, or one) or fewer
    named parts the cell raises [IndexError]. *)
Theorem inspect_second_message_spec (get_payload : string → result Payload)
    (results : gmap string ApiValue) (l : list MessageRef) :
  messages results = VMessages l →
  (∀ part, inspect_second_message get_payload results = Ok part
     ↔ ∃ message payload,
         l !! 1 = Some message ∧ get_payload (id message) = Ok payload
         ∧ get_parts payload !! 1 = Some part)
  ∧ (length l < 2 →
     ∃ msg, inspect_second_message get_payload results = Raise (IndexError msg))
  ∧ (∀ message payload,
       l !! 1 = Some message → get_payload (id message) = Ok payload →
       length (get_parts payload) < 2 →
       ∃ msg, inspect_second_message get_payload results = Raise (IndexError msg)).
Proof.
  intros Hl. unfold inspect_second_message. rewrite Hl. simpl.
  unfold getitem. split; [|split].
  - intros part. split.
    + destruct (l !! 1) as [message|]; simpl; [|discriminate].
      destruct (get_payload (id message)) as [payload|e] eqn:Hp; simpl;
        [|discriminate].
      destruct (get_parts payload !! 1) as [q|] eqn:Hq; [|discriminate].
      intros [= <-]. eauto.
    + intros (message & payload & -> & Hp & Hq). simpl. rewrite Hp. simpl.
      by rewrite Hq.
  - intros Hlen. rewrite (lookup_ge_None_2 l 1) by lia. simpl. eauto.
  - intros message payload -> Hp Hlen. simpl. rewrite Hp. simpl.
    rewrite (lookup_ge_None_2 (get_parts payload) 1) by lia. eauto.
Qed.

Lemma inspect_second_message_spec_witness :
  inspect_second_message mixed_mailbox two_match_response = Ok nested_pdf_part
  ∧ ∃ msg, inspect_second_message mixed_mailbox no_match_response
           = Raise (IndexError msg).
Proof.
  split.
  - apply (proj1 (inspect_second_message_spec mixed_mailbox two_match_response
                    [mkMessageRef "m2" "t2"; mkMessageRef "m1" "t1"] eq_refl)).
    exists (mkMessageRef "m1" "t1"), mixed_payload. repeat split.
  - apply (proj1 (proj2 (inspect_second_message_spec mixed_mailbox
                           no_match_response [] eq_refl))).
    simpl. lia.
Defined.

(** ** The environment cell *)

(** X16: the cell reports the API keys as loaded exactly when both
    [OPENAI_API_KEY] and [GEMINI_API_KEY] are set to non-empty values; a
    key that is set to the empty string counts as not found. *)
Theorem keys_message_loaded_iff (env : gmap string string) :
  (keys_message env = "API keys loaded"
   ↔ ∃ a b, env !! "OPENAI_API_KEY" = Some a ∧ a ≠ ""
            ∧ env !! "GEMINI_API_KEY" = Some b ∧ b ≠ "")
  ∧ (keys_message env ≠ "API keys loaded" →
     keys_message env = "WARNING: API keys not found").
Proof.
  assert (∀ v, truthy v = true ↔ ∃ a, v = Some a ∧ a ≠ "") as Htruthy.
  { intros [a|]; simpl.
    - rewrite negb_true_iff, String.eqb_neq. split; [eauto|].
      by intros (a' & [= <-] & Ha).
    - split; [discriminate | by intros (a & ? & _)]. }
  unfold keys_message, getenv. split.
  - destruct (truthy (env !! "OPENAI_API_KEY")
              && truthy (env !! "GEMINI_API_KEY")) eqn:Hboth.
    + apply andb_true_iff in Hboth as [(a & Ha & Hane)%Htruthy (b & Hb & Hbne)%Htruthy].
      split; [|done]. intros _. exists a, b. done.
    + split; [discriminate|]. intros (a & b & Ha & Hane & Hb & Hbne).
      assert (truthy (env !! "OPENAI_API_KEY") = true) as H1
        by (apply Htruthy; eauto).
      assert (truthy (env !! "GEMINI_API_KEY") = true) as H2
        by (apply Htruthy; eauto).
      rewrite H1, H2 in Hboth. discriminate.
  - destruct (truthy (env !! "OPENAI_API_KEY")
              && truthy (env !! "GEMINI_API_KEY")); done.
Qed.

Lemma keys_message_loaded_iff_witness :
  keys_message notebook_env = "WARNING: API keys not found".
Proof.
  apply (proj2 (keys_message_loaded_iff notebook_env)). discriminate.
Defined.

(** X17: the directory change of the environment cell never goes below
    the directory it starts in.  Without [ROOT_DIR] it always moves to the
    parent; in a directory named as [ROOT_DIR] says it stays; and from a
    direct subdirectory of such a directory it moves there, where running
    the cell again changes nothing. *)
Theorem enter_root_dir_spec (env : gmap string string) (cwd : Path) :
  length (enter_root_dir env cwd) ≤ length cwd
  ∧ (env !! "ROOT_DIR" = None → enter_root_dir env cwd = path_parent cwd)
  ∧ (∀ root, env !! "ROOT_DIR" = Some root →
       (path_name cwd = root → enter_root_dir env cwd = cwd)
       ∧ (path_name cwd ≠ root → path_name (path_parent cwd) = root →
          enter_root_dir env cwd = path_parent cwd
          ∧ enter_root_dir env (enter_root_dir env cwd) = path_parent cwd)).
Proof.
  assert (length (path_parent cwd) ≤ length cwd) as Hparent.
  { unfold path_parent. induction cwd as [|a l IH]; simpl; [lia|].
    destruct l; simpl in *; lia. }
  unfold enter_root_dir, getenv. split; [|split].
  - case_bool_decide; [done | exact Hparent].
  - intros ->. by rewrite bool_decide_eq_false_2.
  - intros root ->. split.
    + intros ->. by rewrite bool_decide_eq_true_2.
    + intros Hne Hup.
      rewrite (bool_decide_eq_false_2 (Some (path_name cwd) = Some root))
        by congruence.
      split; [reflexivity|]. rewrite bool_decide_eq_true_2; congruence.
Qed.

Lemma enter_root_dir_spec_witness :
  enter_root_dir notebook_env (enter_root_dir notebook_env notebooks_dir)
  = ["Users"; "me"; "my-audio-summaries"].
Proof.
  apply (proj2 (proj2 (proj2 (proj2 (enter_root_dir_spec notebook_env notebooks_dir))
                         "my-audio-summaries" eq_refl)
                  ltac:(discriminate) eq_refl)).
Defined.

(** ** The Gmail query *)

Lemma digit_inj (a b : nat) : digit a = digit b → a mod 10 = b mod 10.
Proof.
  unfold digit. intros H. apply (f_equal Ascii.nat_of_ascii) in H.
  rewrite !Ascii.nat_ascii_embedding in H
    by (pose proof (Nat.mod_upper_bound a 10); pose proof (Nat.mod_upper_bound b 10); lia).
  lia.
Qed.

(** Equal leading digits and an equal next digit give equal digits so far. *)
Lemma next_digit_eq (a b k : nat) :
  a / (k * 10) = b / (k * 10) → (a / k) mod 10 = (b / k) mod 10 → a / k = b / k.
Proof.
  intros Hhigh Hlow.
  rewrite (Nat.div_mod_eq (a / k) 10), (Nat.div_mod_eq (b / k) 10).
  rewrite !Nat.Div0.div_div, Hhigh, Hlow. reflexivity.
Qed.

Lemma two_digits_inj (a b : nat) :
  a < 100 → b < 100 → two_digits a = two_digits b → a = b.
Proof.
  intros Ha Hb H.
  assert ((a / 10) mod 10 = (b / 10) mod 10 ∧ a mod 10 = b mod 10) as [H1 H0].
  { unfold two_digits in H. injection H as H1 H0.
    split; apply digit_inj; assumption. }
  assert (a / 10 < 10) as Ha' by (apply Nat.Div0.div_lt_upper_bound; lia).
  assert (b / 10 < 10) as Hb' by (apply Nat.Div0.div_lt_upper_bound; lia).
  rewrite !Nat.mod_small in H1 by assumption.
  rewrite <- (Nat.div_1_r a), <- (Nat.div_1_r b).
  apply next_digit_eq; [exact H1 | by rewrite !Nat.div_1_r].
Qed.

Lemma four_digits_inj (a b : nat) :
  a / 1000 ≤ 9 → b / 1000 ≤ 9 → four_digits a = four_digits b → a = b.
Proof.
  intros Ha Hb H.
  assert ((a / 1000) mod 10 = (b / 1000) mod 10
          ∧ (a / 100) mod 10 = (b / 100) mod 10
          ∧ (a / 10) mod 10 = (b / 10) mod 10
          ∧ a mod 10 = b mod 10) as (H3 & H2 & H1 & H0).
  { unfold four_digits in H. injection H as H3 H2 H1 H0.
    repeat split; apply digit_inj; assumption. }
  rewrite (Nat.mod_small (a / 1000) 10) in H3 by (apply Nat.lt_succ_r; exact Ha).
  rewrite (Nat.mod_small (b / 1000) 10) in H3 by (apply Nat.lt_succ_r; exact Hb).
  rewrite <- (Nat.div_1_r a), <- (Nat.div_1_r b).
  apply next_digit_eq; [|by rewrite !Nat.div_1_r].
  apply (next_digit_eq a b 10); [|exact H1].
  apply (next_digit_eq a b 100); [|exact H2].
  exact H3.
Qed.

Lemma string_cons_inj (c1 c2 : ascii) (s1 s2 : string) :
  String c1 s1 = String c2 s2 → c1 = c2 ∧ s1 = s2.
Proof. intros H. by injection H. Qed.

Lemma gmail_query_unfold (d : Date) :
  gmail_query d
  = "after:" +:+ four_digits (year d) +:+ "/" +:+ two_digits (month d)
    +:+ "/" +:+ two_digits (day d).
Proof. reflexivity. Qed.

(** X18: for dates with a four-digit year, the query built from a date
    determines the date: different dates give different queries, and the
    text after ["after:"] is the ten characters of [YYYY/MM/DD]. *)
Theorem gmail_query_injective (d1 d2 : Date) :
  valid_date d1 → valid_date d2 →
  gmail_query d1 = gmail_query d2 →
  d1 = d2 ∧ String.length (date_str d1) = 10.
Proof.
  destruct d1 as [y1 m1 dd1], d2 as [y2 m2 dd2].
  unfold valid_date. rewrite !gmail_query_unfold. cbn [year month day].
  intros (Hy1 & Hm1 & Hd1) (Hy2 & Hm2 & Hd2) H. split; [|reflexivity].
  assert (four_digits y1 = four_digits y2 ∧ two_digits m1 = two_digits m2
          ∧ two_digits dd1 = two_digits dd2) as (Hy & Hm & Hd).
  { unfold four_digits, two_digits in *. cbv [String.append] in H.
    do 6 apply string_cons_inj in H as [_ H].
    apply string_cons_inj in H as [Hy1000 H].
    apply string_cons_inj in H as [Hy100 H].
    apply string_cons_inj in H as [Hy10 H].
    apply string_cons_inj in H as [Hy0 H].
    apply string_cons_inj in H as [_ H].
    apply string_cons_inj in H as [Hm10 H].
    apply string_cons_inj in H as [Hm0 H].
    apply string_cons_inj in H as [_ H].
    apply string_cons_inj in H as [Hd10 H].
    apply string_cons_inj in H as [Hd0 _].
    by rewrite Hd0, Hd10, Hm0, Hm10, Hy0, Hy10, Hy100, Hy1000. }
  apply four_digits_inj in Hy; [|tauto..].
  apply two_digits_inj in Hm; [|lia..].
  apply two_digits_inj in Hd; [|lia..].
  congruence.
Qed.

Lemma gmail_query_injective_witness :
  gmail_query new_year_2025 = "after:2025/01/01"
  ∧ String.length (date_str new_year_2025) = 10.
Proof.
  split; [reflexivity|].
  refine (proj2 (gmail_query_injective new_year_2025 new_year_2025 _ _ eq_refl));
    (repeat split; simpl; lia).
Defined.

(** ** Fetchers *)

Lemma mapM_result_Ok {A B} (f : A → result B) (l : list A) (ys : list B) :
  mapM f l = Ok ys ↔ Forall2 (λ x y, f x = Ok y) l ys.
Proof.
  revert ys. induction l as [|x l IH]; intros ys; simpl.
  - split; [intros [= <-]; constructor | by intros ->%Forall2_nil_inv_l].
  - destruct (f x) as [y|e] eqn:Hx; simpl.
    + destruct (mapM f l) as [zs|e]; simpl.
      * split.
        -- intros [= <-]. constructor; [exact Hx | by apply IH].
        -- intros (y' & zs' & Hy & Hzs & ->)%Forall2_cons_inv_l.
           apply IH in Hzs. rewrite Hx in Hy.
           injection Hy as ->. by injection Hzs as ->.
      * split; [discriminate|].
        intros (y' & zs' & Hy & Hzs & ->)%Forall2_cons_inv_l.
        apply IH in Hzs. discriminate.
    + split; [discriminate|].
      intros (y' & zs' & Hy & _)%Forall2_cons_inv_l. congruence.
Qed.


